(** * IAM group membership resource: a shallow embedding

    Source: aws/resource_aws_iam_group_membership.go

    The resource handler talks to two collaborators: the IAM client
    ([conn.GetGroup], [conn.AddUserToGroup], [conn.RemoveUserFromGroup])
    and the resource record [schema.ResourceData].  The record is
    modelled as a Rocq record that is passed through each operation; the
    client is modelled as three transition functions over an arbitrary
    service state, and every call that the handler makes is appended to
    a call log together with the error it produced, so that "which calls
    were issued, in which order" is a statement about a value. *)

From stdpp Require Import base option list gmap sets strings pretty.

Open Scope string_scope.
Open Scope list_scope.

(** ** Errors

    Go's [error] interface.  [err.(awserr.Error)] succeeds exactly on
    [AwsError]; [fmt.Errorf] builds a [FmtError]. *)

Inductive error : Type :=
| AwsError (code : string) (message : string)
| OtherError (message : string)
| FmtError (message : string).

Global Instance error_eq_dec : EqDecision error.
Proof. solve_decision. Defined.

(** [awsErr, ok := err.(awserr.Error); ok && awsErr.Code() == "NoSuchEntity"] *)
Definition isNoSuchEntity (e : error) : bool :=
  match e with
  | AwsError code _ => bool_decide (code = "NoSuchEntity")
  | _ => false
  end.

(** ** The IAM client *)

Record GetGroupInput : Type := mkGetGroupInput {
  gg_GroupName : string;
  gg_Marker : option string
}.

Record UserGroupInput : Type := mkUserGroupInput {
  ug_UserName : string;
  ug_GroupName : string
}.

(** [iam.User]: only the field that the handler reads; it is a pointer
    in the SDK, hence optional. *)
Record User : Type := mkUser { UserName : option string }.

(** [iam.GetGroupOutput]: [IsTruncated] is a [*bool], [Marker] a
    [*string]. *)
Record GetGroupOutput : Type := mkGetGroupOutput {
  Users : list User;
  IsTruncated : option bool;
  Marker : option string
}.

Global Instance GetGroupInput_eq_dec : EqDecision GetGroupInput.
Proof. solve_decision. Defined.
Global Instance UserGroupInput_eq_dec : EqDecision UserGroupInput.
Proof. solve_decision. Defined.
Global Instance User_eq_dec : EqDecision User.
Proof. solve_decision. Defined.
Global Instance GetGroupOutput_eq_dec : EqDecision GetGroupOutput.
Proof. solve_decision. Defined.

(** The service behind the client: a state [W] and one transition per
    API operation.  An operation returns its error as Go does ([None] is
    [nil]). *)
Record IAM (W : Type) : Type := mkIAM {
  iam_GetGroup : GetGroupInput → W → (GetGroupOutput + error) * W;
  iam_AddUserToGroup : UserGroupInput → W → option error * W;
  iam_RemoveUserFromGroup : UserGroupInput → W → option error * W
}.
Arguments iam_GetGroup {W} _ _ _.
Arguments iam_AddUserToGroup {W} _ _ _.
Arguments iam_RemoveUserFromGroup {W} _ _ _.

(** ** The call log *)

Inductive Call : Type :=
| CallGetGroup (i : GetGroupInput)
| CallAddUserToGroup (i : UserGroupInput)
| CallRemoveUserFromGroup (i : UserGroupInput).

Global Instance Call_eq_dec : EqDecision Call.
Proof. solve_decision. Defined.

(** One log entry: the call and the error it returned. *)
Record Event : Type := mkEvent {
  ev_call : Call;
  ev_err : option error
}.

Global Instance Event_eq_dec : EqDecision Event.
Proof. solve_decision. Defined.

Definition is_GetGroup (ev : Event) : bool :=
  match ev_call ev with CallGetGroup _ => true | _ => false end.
Definition is_Add (ev : Event) : bool :=
  match ev_call ev with CallAddUserToGroup _ => true | _ => false end.
Definition is_Remove (ev : Event) : bool :=
  match ev_call ev with CallRemoveUserFromGroup _ => true | _ => false end.

(** ** The resource record ([schema.ResourceData])

    The schema has three fields: [name], [group] (strings) and [users]
    (a set of strings).  [rd_users_state] is the value of [users] in the
    prior state, [rd_users] the current one (configuration, or what
    [d.Set] wrote); [None] is "unset". *)
Record ResourceData : Type := mkResourceData {
  rd_id : string;
  rd_name : option string;
  rd_group : option string;
  rd_users_state : option (gset string);
  rd_users : option (gset string)
}.

Global Instance ResourceData_eq_dec : EqDecision ResourceData.
Proof. solve_decision. Defined.

(** [d.Id()] *)
Definition Id (d : ResourceData) : string := rd_id d.

(** [d.SetId(v)] *)
Definition SetId (v : string) (d : ResourceData) : ResourceData :=
  {| rd_id := v; rd_name := rd_name d; rd_group := rd_group d;
     rd_users_state := rd_users_state d; rd_users := rd_users d |}.

(** [d.Get("name").(string)], [d.Get("group").(string)]: an unset
    field reads as the zero value. *)
Definition Get_name (d : ResourceData) : string := default "" (rd_name d).
Definition Get_group (d : ResourceData) : string := default "" (rd_group d).

(** [d.Get("users")] as a [schema.Set] *)
Definition Get_users (d : ResourceData) : gset string := default ∅ (rd_users d).

(** [d.GetChange("users")]: old and new value, each the zero value
    (an empty set, never nil) when unset.  The results are interfaces,
    which the caller tests against nil. *)
Definition GetChange_users (d : ResourceData)
  : option (gset string) * option (gset string) :=
  (Some (default ∅ (rd_users_state d)), Some (default ∅ (rd_users d))).

(** [d.HasChange("users")]: [!o.Equal(n)] on the two sets. *)
Definition HasChange_users (d : ResourceData) : bool :=
  match GetChange_users d with
  | (Some o, Some n) => negb (bool_decide (o = n))
  | (None, None) => false
  | _ => true
  end.

(** [d.Set("group", v)] *)
Definition Set_group (v : string) (d : ResourceData) : ResourceData :=
  {| rd_id := rd_id d; rd_name := rd_name d; rd_group := Some v;
     rd_users_state := rd_users_state d; rd_users := rd_users d |}.

(** [d.Set("users", ul)] with [ul : []string]: the slice is turned into
    a set (duplicates collapse).  A string slice always fits the schema
    of [users], so the returned error is nil. *)
Definition Set_users (ul : list string) (d : ResourceData)
  : option error * ResourceData :=
  (None,
   {| rd_id := rd_id d; rd_name := rd_name d; rd_group := rd_group d;
      rd_users_state := rd_users_state d;
      rd_users := Some (list_to_set ul) |}).

(** [Set.List()] of [schema.Set]: the elements, each once, in the set's own
    (unspecified) order. *)
Definition Set_List (s : gset string) : list string := elements s.

(** [Set.Difference] of [schema.Set] *)
Definition Set_Difference (s t : gset string) : gset string := s ∖ t.

(** Modelled from the spec: [expandStringList] lives in another file of
    the package (not part of this source); the spec has every member of
    the set passed on to the per-user calls, so it is the conversion of
    [[]interface{}] to [[]*string] that keeps every element. *)
Definition expandStringList (l : list string) : list string := l.

(** ** Outcome of a handler

    A handler returns a Go [error] ([Returned None] is [return nil]); it
    panics when it dereferences a nil pointer; the listing loop of Read
    has no bound of its own, so its model takes a number of iterations
    it may use and reports when it has used them up. *)
Inductive outcome : Type :=
| Returned (err : option error)
| Panicked
| OutOfFuel.

Global Instance outcome_eq_dec : EqDecision outcome.
Proof. solve_decision. Defined.

(** [err.Error()] *)
Definition Error (e : error) : string :=
  match e with
  | AwsError code message => code +:+ ": " +:+ message
  | OtherError message => message
  | FmtError message => message
  end.

(** [%q] of [fmt]: the text between double quotes (the one place that
    uses it formats the empty string, which needs no escape). *)
Definition dquote : string := String (Ascii.ascii_of_nat 34) EmptyString.
Definition fmt_q (s : string) : string := dquote +:+ s +:+ dquote.

Section Handler.

Context {W : Type}.
Variable conn : IAM W.

(** The client with its recorder: service state and call log. *)
Definition World : Type := W * list Event.

Definition conn_GetGroup (i : GetGroupInput) (w : World)
  : (GetGroupOutput + error) * World :=
  let '(r, s) := iam_GetGroup conn i (fst w) in
  (r, (s, snd w ++ [mkEvent (CallGetGroup i)
                      (match r with inl _ => None | inr e => Some e end)])).

Definition conn_AddUserToGroup (i : UserGroupInput) (w : World)
  : option error * World :=
  let '(r, s) := iam_AddUserToGroup conn i (fst w) in
  (r, (s, snd w ++ [mkEvent (CallAddUserToGroup i) r])).

Definition conn_RemoveUserFromGroup (i : UserGroupInput) (w : World)
  : option error * World :=
  let '(r, s) := iam_RemoveUserFromGroup conn i (fst w) in
  (r, (s, snd w ++ [mkEvent (CallRemoveUserFromGroup i) r])).

(** [removeUsersFromGroup] *)
Fixpoint removeUsersFromGroup (users : list string) (group : string)
    (w : World) : option error * World :=
  match users with
  | [] => (None, w)
  | u :: users' =>
      match conn_RemoveUserFromGroup (mkUserGroupInput u group) w with
      | (Some err, w1) =>
          if isNoSuchEntity err then (None, w1) else (Some err, w1)
      | (None, w1) => removeUsersFromGroup users' group w1
      end
  end.

(** [addUsersToGroup] *)
Fixpoint addUsersToGroup (users : list string) (group : string)
    (w : World) : option error * World :=
  match users with
  | [] => (None, w)
  | u :: users' =>
      match conn_AddUserToGroup (mkUserGroupInput u group) w with
      | (Some err, w1) => (Some err, w1)
      | (None, w1) => addUsersToGroup users' group w1
      end
  end.

(** [for _, u := range resp.Users { ul = append(ul, *u.UserName) }];
    [None] when a [UserName] is nil (the dereference panics). *)
Fixpoint appendUserNames (ul : list string) (us : list User)
  : option (list string) :=
  match us with
  | [] => Some ul
  | u :: us' =>
      match UserName u with
      | None => None
      | Some name => appendUserNames (ul ++ [name]) us'
      end
  end.

(** The [for] loop of [resourceAwsIamGroupMembershipRead] together with
    the statements after it (reached by [break]); [fuel] bounds the
    number of iterations. *)
Fixpoint resourceAwsIamGroupMembershipRead_loop (fuel : nat)
    (d : ResourceData) (group : string) (marker : option string)
    (ul : list string) (w : World) : outcome * ResourceData * World :=
  match fuel with
  | O => (OutOfFuel, d, w)
  | S fuel' =>
      match conn_GetGroup (mkGetGroupInput group marker) w with
      | (inr err, w1) =>
          if isNoSuchEntity err
          then (Returned None, SetId "" d, w1)
          else (Returned (Some err), d, w1)
      | (inl resp, w1) =>
          match appendUserNames ul (Users resp) with
          | None => (Panicked, d, w1)
          | Some ul' =>
              match IsTruncated resp with
              | None => (Panicked, d, w1)
              | Some false =>
                  match Set_users ul' d with
                  | (Some err, d') =>
                      (Returned (Some (FmtError
                         ("Error setting user list from IAM Group Membership ("
                          +:+ group +:+ "), error: " +:+ Error err))), d', w1)
                  | (None, d') => (Returned None, d', w1)
                  end
              | Some true =>
                  resourceAwsIamGroupMembershipRead_loop
                    fuel' d group (Marker resp) ul' w1
              end
          end
      end
  end.

(** [resourceAwsIamGroupMembershipRead] *)
Definition resourceAwsIamGroupMembershipRead (fuel : nat)
    (d : ResourceData) (w : World) : outcome * ResourceData * World :=
  let group := Get_group d in
  resourceAwsIamGroupMembershipRead_loop fuel d group None [] w.

(** [resourceAwsIamGroupMembershipCreate] *)
Definition resourceAwsIamGroupMembershipCreate (fuel : nat)
    (d : ResourceData) (w : World) : outcome * ResourceData * World :=
  let group := Get_group d in
  let userList := expandStringList (Set_List (Get_users d)) in
  match addUsersToGroup userList group w with
  | (Some err, w1) => (Returned (Some err), d, w1)
  | (None, w1) =>
      resourceAwsIamGroupMembershipRead fuel (SetId (Get_name d) d) w1
  end.

(** [resourceAwsIamGroupMembershipUpdate] *)
Definition resourceAwsIamGroupMembershipUpdate (fuel : nat)
    (d : ResourceData) (w : World) : outcome * ResourceData * World :=
  if HasChange_users d then
    let group := Get_group d in
    let '(o, n) := GetChange_users d in
    let os := default ∅ o in
    let ns := default ∅ n in
    let remove := expandStringList (Set_List (Set_Difference os ns)) in
    let add := expandStringList (Set_List (Set_Difference ns os)) in
    match removeUsersFromGroup remove group w with
    | (Some err, w1) => (Returned (Some err), d, w1)
    | (None, w1) =>
        match addUsersToGroup add group w1 with
        | (Some err, w2) => (Returned (Some err), d, w2)
        | (None, w2) => resourceAwsIamGroupMembershipRead fuel d w2
        end
    end
  else resourceAwsIamGroupMembershipRead fuel d w.

(** [resourceAwsIamGroupMembershipDelete] *)
Definition resourceAwsIamGroupMembershipDelete
    (d : ResourceData) (w : World) : outcome * ResourceData * World :=
  let userList := expandStringList (Set_List (Get_users d)) in
  let group := Get_group d in
  let '(err, w1) := removeUsersFromGroup userList group w in
  (Returned err, d, w1).

End Handler.

(** [resourceAwsIamGroupMembershipImport].  [resource.UniqueId] belongs
    to the plugin SDK; it is a generator [UniqueId] over a state [G]. *)
Section Importer.

Context {G : Type}.
Variable UniqueId : G → string * G.

Definition resourceAwsIamGroupMembershipImport
    (d : ResourceData) (g : G) : (list ResourceData + error) * G :=
  let groupName := Id d in
  if Nat.eqb (String.length groupName) 0 then
    (inr (FmtError ("unexpected format of ID (" +:+ fmt_q (Id d)
                    +:+ "), expected <group-name>")), g)
  else
    let d1 := Set_group groupName d in
    let '(id, g') := UniqueId g in
    let d2 := SetId id d1 in
    (inl [d2], g').

End Importer.

(** [schema.Resource]: the four lifecycle entry points. *)
Inductive Operation : Type := OpCreate | OpRead | OpUpdate | OpDelete.

Definition run {W : Type} (conn : IAM W) (op : Operation) (fuel : nat)
    (d : ResourceData) (w : World) : outcome * ResourceData * World :=
  match op with
  | OpCreate => resourceAwsIamGroupMembershipCreate conn fuel d w
  | OpRead => resourceAwsIamGroupMembershipRead conn fuel d w
  | OpUpdate => resourceAwsIamGroupMembershipUpdate conn fuel d w
  | OpDelete => resourceAwsIamGroupMembershipDelete conn d w
  end.

(** ** Test doubles for the client

    [scriptIAM]: a client that answers from three queues, one per
    operation, whatever it is asked.  An exhausted [GetGroup] queue
    answers with a plain error, an exhausted add or remove queue with
    success. *)
Record Script : Type := mkScript {
  s_get : list (GetGroupOutput + error);
  s_add : list (option error);
  s_remove : list (option error)
}.

Definition scriptIAM : IAM Script :=
  {| iam_GetGroup := λ _ s,
       match s_get s with
       | [] => (inr (OtherError "no more pages"), s)
       | r :: rs => (r, mkScript rs (s_add s) (s_remove s))
       end;
     iam_AddUserToGroup := λ _ s,
       match s_add s with
       | [] => (None, s)
       | r :: rs => (r, mkScript (s_get s) rs (s_remove s))
       end;
     iam_RemoveUserFromGroup := λ _ s,
       match s_remove s with
       | [] => (None, s)
       | r :: rs => (r, mkScript (s_get s) (s_add s) rs)
       end |}.

(** [simIAM pageSize]: a small identity service.  Its state maps each
    existing group to its members.  Listing pages through the members in
    a fixed order, [pageSize] at a time; the marker of a truncated page
    is the last username on it. *)
Fixpoint drop_through (m : string) (l : list string) : list string :=
  match l with
  | [] => []
  | x :: l' => if bool_decide (x = m) then l' else drop_through m l'
  end.

Definition sim_page (pageSize : nat) (marker : option string)
    (members : list string) : GetGroupOutput :=
  let rest := match marker with
              | None => members
              | Some m => drop_through m members
              end in
  let page := take pageSize rest in
  let more := bool_decide (pageSize < length rest) in
  {| Users := map (λ u, mkUser (Some u)) page;
     IsTruncated := Some more;
     Marker := if more then last page else None |}.

Definition noSuchGroup (g : string) : error :=
  AwsError "NoSuchEntity" ("The group with name " +:+ g +:+ " cannot be found.").

Definition simIAM (pageSize : nat) : IAM (gmap string (gset string)) :=
  {| iam_GetGroup := λ i s,
       match s !! gg_GroupName i with
       | None => (inr (noSuchGroup (gg_GroupName i)), s)
       | Some members =>
           (inl (sim_page pageSize (gg_Marker i) (elements members)), s)
       end;
     iam_AddUserToGroup := λ i s,
       match s !! ug_GroupName i with
       | None => (Some (noSuchGroup (ug_GroupName i)), s)
       | Some members =>
           (None, <[ug_GroupName i := {[ug_UserName i]} ∪ members]> s)
       end;
     iam_RemoveUserFromGroup := λ i s,
       match s !! ug_GroupName i with
       | None => (Some (noSuchGroup (ug_GroupName i)), s)
       | Some members =>
           (None, <[ug_GroupName i := members ∖ {[ug_UserName i]}]> s)
       end |}.

(** ** Vocabulary of the statements *)

(** A handler starts with an empty call log. *)
Definition start {W : Type} (s : W) : @World W := (s, []).

Definition removal (group : string) (err : option error) (u : string) : Event :=
  mkEvent (CallRemoveUserFromGroup (mkUserGroupInput u group)) err.
Definition addition (group : string) (err : option error) (u : string) : Event :=
  mkEvent (CallAddUserToGroup (mkUserGroupInput u group)) err.
Definition listing (group : string) (err : option error)
    (marker : option string) : Event :=
  mkEvent (CallGetGroup (mkGetGroupInput group marker)) err.

(** The two errors that the handlers swallow: [NoSuchEntity] from
    [GetGroup] and from [RemoveUserFromGroup]. *)
Definition tolerated (ev : Event) : bool :=
  match ev_call ev, ev_err ev with
  | CallGetGroup _, Some e => isNoSuchEntity e
  | CallRemoveUserFromGroup _, Some e => isNoSuchEntity e
  | _, _ => false
  end.

(** A page has its truncation flag and a username in every entry. *)
Definition page_ok (p : GetGroupOutput) : Prop :=
  is_Some (IsTruncated p) ∧ Forall (λ u, is_Some (UserName u)) (Users p).

(** What one run of the listing loop leaves behind: only [GetGroup]
    calls; a failed call is the last one and decides the outcome; an
    error that is returned is the error of the last call; the fields
    [name], [group] and the prior [users] are not written. *)
Definition read_post (d : ResourceData) (evs : list Event)
    (out : outcome) (d' : ResourceData) : Prop :=
  Forall (λ ev, is_GetGroup ev = true) evs ∧
  (∀ pre ev post e,
      evs = pre ++ ev :: post → ev_err ev = Some e →
      post = [] ∧
      if isNoSuchEntity e
      then out = Returned None ∧ d' = SetId "" d
      else out = Returned (Some e) ∧ d' = d) ∧
  (∀ e, out = Returned (Some e) →
      ∃ pre ev, evs = pre ++ [ev] ∧ ev_err ev = Some e ∧
                isNoSuchEntity e = false) ∧
  rd_name d' = rd_name d ∧ rd_group d' = rd_group d ∧
  rd_users_state d' = rd_users_state d.

(** An entry is clean when its call succeeded or failed with an error
    that the handler swallows. *)
Definition clean (ev : Event) : bool :=
  match ev_err ev with None => true | Some _ => tolerated ev end.

(** [surfaced evs out]: a call that failed with an error that is not
    swallowed is the last call and its error is what the handler
    returned; an error that the handler returned is the error of the
    last call. *)
Definition surfaced (evs : list Event) (out : outcome) : Prop :=
  (∀ pre ev post e,
      evs = pre ++ ev :: post → ev_err ev = Some e → tolerated ev = false →
      post = [] ∧ out = Returned (Some e)) ∧
  (∀ e, out = Returned (Some e) →
      ∃ pre ev, evs = pre ++ [ev] ∧ ev_err ev = Some e).

(** The usernames on a list of pages, in page order. *)
Definition names_of (pages : list GetGroupOutput) : list string :=
  concat (map (λ p, omap UserName (Users p)) pages).

Definition names_present (p : GetGroupOutput) : Prop :=
  Forall (λ u, is_Some (UserName u)) (Users p).

(** The record that the importer receives: the identifier that the user
    supplied and no field set. *)
Definition importRecord (id : string) : ResourceData :=
  {| rd_id := id; rd_name := None; rd_group := None;
     rd_users_state := None; rd_users := None |}.

(** [resource.UniqueId] for the sample runs: the SDK's prefix
    followed by a counter. *)
Definition sdkUniqueId (counter : nat) : string * nat :=
  ("terraform-" +:+ pretty counter, S counter).

(** ** Sample records *)

Definition gone : error := AwsError "NoSuchEntity" "The user cannot be found.".
Definition denied : error := AwsError "AccessDenied" "not authorized".

Definition team : ResourceData :=
  {| rd_id := "team"; rd_name := Some "team"; rd_group := Some "devs";
     rd_users_state := Some {["alice"; "bob"]};
     rd_users := Some {["alice"; "bob"]} |}.

Definition page1 : GetGroupOutput :=
  {| Users := [mkUser (Some "alice")];
     IsTruncated := Some true; Marker := Some "m1" |}.

Definition page2 : GetGroupOutput :=
  {| Users := [mkUser (Some "bob"); mkUser (Some "carol")];
     IsTruncated := Some false; Marker := None |}.

(** A page whose second entry has no username. *)
Definition page_bad : GetGroupOutput :=
  {| Users := [mkUser (Some "bob"); mkUser None];
     IsTruncated := Some false; Marker := None |}.

(** alice leaves, carol joins. *)
Definition moved : ResourceData :=
  {| rd_id := "team"; rd_name := Some "team"; rd_group := Some "devs";
     rd_users_state := Some {["alice"; "bob"]};
     rd_users := Some {["bob"; "carol"]} |}.

(** ** Vocabulary of the further properties *)

(** The group that a call names. *)
Definition call_group (c : Call) : string :=
  match c with
  | CallGetGroup i => gg_GroupName i
  | CallAddUserToGroup i => ug_GroupName i
  | CallRemoveUserFromGroup i => ug_GroupName i
  end.

(** The most calls that an operation can make: one per member that it
    adds or removes, one per iteration of the listing loop. *)
Definition call_budget (op : Operation) (fuel : nat) (d : ResourceData) : nat :=
  let O := default ∅ (rd_users_state d) in
  let D := Get_users d in
  match op with
  | OpCreate => size D + fuel
  | OpRead => fuel
  | OpUpdate => size (O ∖ D) + size (D ∖ O) + fuel
  | OpDelete => size D
  end.

(** What an operation may write in the record: never [name], [group] or
    the prior [users]; [users] only when it returns [nil]; the identity
    is kept, cleared, or (in Create) set to the configured name; Delete
    writes nothing. *)
Definition record_frame (op : Operation) (d : ResourceData)
    (out : outcome) (d' : ResourceData) : Prop :=
  rd_name d' = rd_name d ∧ rd_group d' = rd_group d ∧
  rd_users_state d' = rd_users_state d ∧
  (out ≠ Returned None → rd_users d' = rd_users d) ∧
  (rd_id d' = rd_id d ∨ rd_id d' = "" ∨
   (op = OpCreate ∧ rd_id d' = Get_name d)) ∧
  (op = OpDelete → d' = d).

(** A client whose listing always answers with the same page, marked
    as truncated. *)
Definition stuckIAM : IAM unit :=
  {| iam_GetGroup := λ _ s, (inl page1, s);
     iam_AddUserToGroup := λ _ s, (None, s);
     iam_RemoveUserFromGroup := λ _ s, (None, s) |}.

(** * Properties *)

Section Calls.

Context {W : Type}.
Variable conn : IAM W.

(** ** One call appends one entry *)

Lemma conn_AddUserToGroup_log i (w : World) r w' :
  conn_AddUserToGroup conn i w = (r, w') →
  snd w' = snd w ++ [mkEvent (CallAddUserToGroup i) r].
Proof.
  unfold conn_AddUserToGroup.
  destruct (iam_AddUserToGroup conn i (fst w)) as [r0 s].
  intros [= <- <-]. reflexivity.
Qed.

Lemma conn_RemoveUserFromGroup_log i (w : World) r w' :
  conn_RemoveUserFromGroup conn i w = (r, w') →
  snd w' = snd w ++ [mkEvent (CallRemoveUserFromGroup i) r].
Proof.
  unfold conn_RemoveUserFromGroup.
  destruct (iam_RemoveUserFromGroup conn i (fst w)) as [r0 s].
  intros [= <- <-]. reflexivity.
Qed.

Lemma conn_GetGroup_log i (w : World) r w' :
  conn_GetGroup conn i w = (r, w') →
  snd w' = snd w ++ [mkEvent (CallGetGroup i)
                       (match r with inl _ => None | inr e => Some e end)].
Proof.
  unfold conn_GetGroup.
  destruct (iam_GetGroup conn i (fst w)) as [r0 s].
  intros [= <- <-]. reflexivity.
Qed.

(** ** The add loop

    Either every user got its call and every call succeeded, or the
    calls stop at the first one that failed and its error comes back. *)
Lemma addUsersToGroup_log users group (w : World) r w' :
  addUsersToGroup conn users group w = (r, w') →
  (r = None ∧ snd w' = snd w ++ map (addition group None) users)
  ∨ (∃ pre u post e,
        users = pre ++ u :: post ∧ r = Some e ∧
        snd w' = snd w ++ map (addition group None) pre
                         ++ [addition group (Some e) u]).
Proof.
  revert w. induction users as [|u users IH]; intros w; simpl.
  - intros [= <- <-]. left. by rewrite app_nil_r.
  - destruct (conn_AddUserToGroup conn _ w) as [[e|] w1] eqn:Hc;
      apply conn_AddUserToGroup_log in Hc.
    + intros [= <- <-]. right. exists [], u, users, e. by rewrite Hc.
    + intros Hrec. destruct (IH _ Hrec) as [[-> Hl]|(pre & u' & post & e & -> & -> & Hl)].
      * left. split; [done|]. rewrite Hl, Hc, <- app_assoc. reflexivity.
      * right. exists (u :: pre), u', post, e. split; [done|]. split; [done|].
        rewrite Hl, Hc. simpl. rewrite <- !app_assoc. reflexivity.
Qed.

(** ** The remove loop

    As the add loop, except that the first failed call ends the loop
    with [nil] when its code is [NoSuchEntity]. *)
Lemma removeUsersFromGroup_log users group (w : World) r w' :
  removeUsersFromGroup conn users group w = (r, w') →
  (r = None ∧ snd w' = snd w ++ map (removal group None) users)
  ∨ (∃ pre u post e,
        users = pre ++ u :: post ∧
        r = (if isNoSuchEntity e then None else Some e) ∧
        snd w' = snd w ++ map (removal group None) pre
                         ++ [removal group (Some e) u]).
Proof.
  revert w. induction users as [|u users IH]; intros w; simpl.
  - intros [= <- <-]. left. by rewrite app_nil_r.
  - destruct (conn_RemoveUserFromGroup conn _ w) as [[e|] w1] eqn:Hc;
      apply conn_RemoveUserFromGroup_log in Hc.
    + intros Hr. right. exists [], u, users, e. split; [done|].
      destruct (isNoSuchEntity e); injection Hr as <- <-; by rewrite Hc.
    + intros Hrec. destruct (IH _ Hrec) as [[-> Hl]|(pre & u' & post & e & -> & -> & Hl)].
      * left. split; [done|]. rewrite Hl, Hc, <- app_assoc. reflexivity.
      * right. exists (u :: pre), u', post, e. split; [done|]. split; [done|].
        rewrite Hl, Hc. simpl. rewrite <- !app_assoc. reflexivity.
Qed.

End Calls.

Section ReadLoop.

Context {W : Type}.
Variable conn : IAM W.

Lemma read_post_nil d out :
  (∀ e, out ≠ Returned (Some e)) → ∀ d',
  rd_name d' = rd_name d → rd_group d' = rd_group d →
  rd_users_state d' = rd_users_state d →
  read_post d [] out d'.
Proof.
  intros Hout d' Hn Hg Hu. unfold read_post. split_and!; try done.
  - intros pre ev post e Hnil. by destruct pre.
  - intros e He. by destruct (Hout e).
Qed.

(** A successful call in front of a run. *)
Lemma read_post_cons d ev evs out d' :
  is_GetGroup ev = true → ev_err ev = None →
  read_post d evs out d' → evs ≠ [] ∨ (∀ e, out ≠ Returned (Some e)) →
  read_post d (ev :: evs) out d'.
Proof.
  intros Hg Hn (Hall & Hfail & Hret & Hfields) Hne.
  unfold read_post. split_and!; try tauto.
  - by constructor.
  - intros [|p pre] ev0 post e; intros [= -> ->] He; [congruence|].
    by apply (Hfail pre ev0 post e).
  - intros e He. destruct (Hret e He) as (pre & ev' & -> & He' & Hno).
    exists (ev :: pre), ev'. done.
Qed.

Lemma read_loop_post fuel d group marker ul (w : World) out d' w' :
  resourceAwsIamGroupMembershipRead_loop conn fuel d group marker ul w
    = (out, d', w') →
  ∃ evs, snd w' = snd w ++ evs ∧ read_post d evs out d'.
Proof.
  revert marker ul w. induction fuel as [|fuel IH]; intros marker ul w; simpl.
  - intros [= <- <- <-]. exists []. split; [by rewrite app_nil_r|].
    by apply read_post_nil.
  - destruct (conn_GetGroup conn _ w) as [[resp|err] w1] eqn:Hc;
      apply conn_GetGroup_log in Hc.
    + set (ev := mkEvent (CallGetGroup (mkGetGroupInput group marker)) None) in Hc.
      assert (Hstop : ∀ o dd, (∀ e, o ≠ Returned (Some e)) →
                rd_name dd = rd_name d → rd_group dd = rd_group d →
                rd_users_state dd = rd_users_state d →
                (o, dd, w1) = (out, d', w') →
                ∃ evs, snd w' = snd w ++ evs ∧ read_post d evs out d').
      { intros o dd Ho H1 H2 H3 [= <- <- <-]. exists [ev]. split; [done|].
        apply read_post_cons; [done|done| |by right].
        by apply read_post_nil. }
      destruct (appendUserNames ul (Users resp)) as [ul'|]; [|by apply Hstop].
      destruct (IsTruncated resp) as [[|]|]; [| |by apply Hstop].
      * intros Hrec. destruct (IH _ _ _ Hrec) as (evs & Hl & Hp).
        exists (ev :: evs). split.
        { rewrite Hl, Hc, <- app_assoc. reflexivity. }
        apply read_post_cons; [done|done|done|].
        destruct evs as [|e0 evs]; [right|by left].
        intros e ->. destruct Hp as (_ & _ & Hret & _).
        destruct (Hret e eq_refl) as (pre & ev' & Hnil & _). by destruct pre.
      * unfold Set_users. by apply Hstop.
    + set (ev := mkEvent (CallGetGroup (mkGetGroupInput group marker)) (Some err)) in Hc.
      assert (Hone : ∀ pre ev' post e,
                [ev] = pre ++ ev' :: post → ev_err ev' = Some e →
                post = [] ∧ e = err).
      { intros [|p [|p' pre]] ev' post e; simpl; intros [= <- Hpost]; simpl;
          intros [= <-]; done. }
      destruct (isNoSuchEntity err) eqn:Hno; intros [= <- <- <-];
        exists [ev]; (split; [done|]); unfold read_post; split_and!; try done.
      * by repeat constructor.
      * intros pre ev' post e H H0.
        destruct (Hone _ _ _ _ H H0) as (-> & ->). by rewrite Hno.
      * by repeat constructor.
      * intros pre ev' post e H H0.
        destruct (Hone _ _ _ _ H H0) as (-> & ->). by rewrite Hno.
      * intros e [= <-]. by exists [], ev.
Qed.

End ReadLoop.

(** ** Error propagation *)

Lemma clean_split evs pre ev post e :
  Forall (λ ev, clean ev = true) evs →
  evs = pre ++ ev :: post → ev_err ev = Some e → tolerated ev = true.
Proof.
  intros Hall -> He. rewrite Forall_app, Forall_cons in Hall.
  destruct Hall as (_ & Hev & _). unfold clean in Hev. by rewrite He in Hev.
Qed.

Lemma surfaced_clean evs out :
  Forall (λ ev, clean ev = true) evs → (∀ e, out ≠ Returned (Some e)) →
  surfaced evs out.
Proof.
  intros Hall Hout. split.
  - intros pre ev post e Heq He Htol.
    rewrite (clean_split _ _ _ _ _ Hall Heq He) in Htol. done.
  - intros e He. by destruct (Hout e).
Qed.

Lemma surfaced_fail pre ev e :
  Forall (λ ev, clean ev = true) pre → ev_err ev = Some e →
  surfaced (pre ++ [ev]) (Returned (Some e)).
Proof.
  intros Hall He. split.
  - intros pre' ev' post e' Heq He' Htol.
    destruct post as [|p post _] using rev_ind.
    + apply app_inj_tail in Heq as [_ <-]. split; congruence.
    + rewrite app_comm_cons, app_assoc in Heq.
      apply app_inj_tail in Heq as [-> _].
      rewrite (clean_split _ _ _ _ _ Hall eq_refl He') in Htol. done.
  - intros e' [= <-]. by exists pre, ev.
Qed.

Lemma surfaced_app evs1 evs2 out :
  Forall (λ ev, clean ev = true) evs1 → surfaced evs2 out →
  surfaced (evs1 ++ evs2) out.
Proof.
  intros Hall [Hfail Hret]. split.
  - intros pre ev post e Heq He Htol.
    apply app_eq_app in Heq as [l [[-> Hpost]|[-> Hevs2]]].
    + destruct l as [|x l]; simpl in Hpost.
      * by apply (Hfail [] ev post e).
      * injection Hpost as -> ->.
        rewrite (clean_split _ _ _ _ _ Hall eq_refl He) in Htol. done.
    + by apply (Hfail l ev post e).
  - intros e He. destruct (Hret e He) as (pre & ev & -> & Hev).
    exists (evs1 ++ pre), ev. by rewrite app_assoc.
Qed.

Lemma read_post_surfaced d evs out d' :
  read_post d evs out d' → surfaced evs out.
Proof.
  intros (Hall & Hfail & Hret & _). split.
  - intros pre ev post e Heq He Htol.
    destruct (Hfail pre ev post e Heq He) as [-> Hcase]. split; [done|].
    assert (Hg : is_GetGroup ev = true).
    { subst evs. rewrite Forall_app, Forall_cons in Hall. tauto. }
    unfold tolerated in Htol. unfold is_GetGroup in Hg.
    destruct (ev_call ev); try done. rewrite He in Htol.
    rewrite Htol in Hcase. tauto.
  - intros e He. destruct (Hret e He) as (pre & ev & -> & Hev & _). eauto.
Qed.

Lemma clean_additions group users :
  Forall (λ ev, clean ev = true) (map (addition group None) users).
Proof. apply Forall_map, Forall_true. done. Qed.

Lemma clean_removals group users :
  Forall (λ ev, clean ev = true) (map (removal group None) users).
Proof. apply Forall_map, Forall_true. done. Qed.

Section Claims.

Context {W : Type}.
Variable conn : IAM W.

Lemma Read_post fuel d (w : World) out d' w' :
  resourceAwsIamGroupMembershipRead conn fuel d w = (out, d', w') →
  ∃ evs, snd w' = snd w ++ evs ∧ read_post d evs out d'.
Proof. apply read_loop_post. Qed.

Lemma Create_surfaced fuel d (s : W) out d' w' :
  resourceAwsIamGroupMembershipCreate conn fuel d (start s) = (out, d', w') →
  surfaced (snd w') out.
Proof.
  unfold resourceAwsIamGroupMembershipCreate.
  destruct (addUsersToGroup conn _ _ (start s)) as [r w1] eqn:Hadd.
  apply addUsersToGroup_log in Hadd
    as [[-> Hl]|(pre & u & post & e & _ & -> & Hl)]; simpl in Hl.
  - intros Hread. apply Read_post in Hread as (evs & -> & Hp). rewrite Hl.
    apply surfaced_app; [apply clean_additions|].
    by apply read_post_surfaced in Hp.
  - intros [= <- <- <-]. rewrite Hl.
    apply surfaced_fail; [apply clean_additions|done].
Qed.

Lemma Read_surfaced fuel d (s : W) out d' w' :
  resourceAwsIamGroupMembershipRead conn fuel d (start s) = (out, d', w') →
  surfaced (snd w') out.
Proof.
  intros Hread. apply Read_post in Hread as (evs & -> & Hp).
  by apply read_post_surfaced in Hp.
Qed.

(** The log of a remove loop that returned [nil] is clean. *)
Lemma removals_clean users group (w : World) w' :
  removeUsersFromGroup conn users group w = (None, w') →
  ∃ evs, snd w' = snd w ++ evs ∧ Forall (λ ev, clean ev = true) evs ∧
         Forall (λ ev, is_Remove ev = true) evs.
Proof.
  intros Hrm. apply removeUsersFromGroup_log in Hrm
    as [[_ Hl]|(pre & u & post & e & _ & Hr & Hl)].
  - eexists. split; [done|]. split; [apply clean_removals|].
    apply Forall_map, Forall_true. done.
  - eexists. split; [exact Hl|]. split.
    + apply Forall_app. split; [apply clean_removals|].
      constructor; [|done]. unfold clean, tolerated; simpl.
      by destruct (isNoSuchEntity e).
    + apply Forall_app. split; [|by repeat constructor].
      apply Forall_map, Forall_true. done.
Qed.

Lemma removals_failed users group (w : World) e w' :
  removeUsersFromGroup conn users group w = (Some e, w') →
  ∃ pre u, snd w' = snd w ++ map (removal group None) pre
                            ++ [removal group (Some e) u] ∧
           isNoSuchEntity e = false.
Proof.
  intros Hrm. apply removeUsersFromGroup_log in Hrm
    as [[? _]|(pre & u & post & e' & _ & Hr & Hl)]; [done|].
  destruct (isNoSuchEntity e') eqn:Hno; [done|]. injection Hr as ->.
  by exists pre, u.
Qed.

Lemma Delete_surfaced d (s : W) out d' w' :
  resourceAwsIamGroupMembershipDelete conn d (start s) = (out, d', w') →
  surfaced (snd w') out.
Proof.
  unfold resourceAwsIamGroupMembershipDelete.
  destruct (removeUsersFromGroup conn _ _ (start s)) as [[e|] w1] eqn:Hrm;
    intros [= <- <- <-].
  - apply removals_failed in Hrm as (pre & u & -> & _); simpl.
    apply surfaced_fail; [apply clean_removals|done].
  - apply removals_clean in Hrm as (evs & -> & Hc & _); simpl.
    by apply surfaced_clean.
Qed.

Lemma Update_surfaced fuel d (s : W) out d' w' :
  resourceAwsIamGroupMembershipUpdate conn fuel d (start s) = (out, d', w') →
  surfaced (snd w') out.
Proof.
  unfold resourceAwsIamGroupMembershipUpdate.
  destruct (HasChange_users d); [|apply Read_surfaced].
  unfold GetChange_users.
  destruct (removeUsersFromGroup conn _ _ (start s)) as [[e|] w1] eqn:Hrm.
  - intros [= <- <- <-].
    apply removals_failed in Hrm as (pre & u & -> & _); simpl.
    apply surfaced_fail; [apply clean_removals|done].
  - apply removals_clean in Hrm as (evs & Hl1 & Hc & _); simpl in Hl1.
    destruct (addUsersToGroup conn _ _ w1) as [r w2] eqn:Hadd.
    apply addUsersToGroup_log in Hadd
      as [[-> Hl]|(pre & u & post & e & _ & -> & Hl)].
    + intros Hread. apply Read_post in Hread as (evs' & -> & Hp).
      rewrite Hl, Hl1. apply surfaced_app.
      { apply Forall_app. split; [done|apply clean_additions]. }
      by apply read_post_surfaced in Hp.
    + intros [= <- <- <-]. rewrite Hl, Hl1, app_assoc.
      apply surfaced_fail; [|done].
      apply Forall_app. split; [done|apply clean_additions].
Qed.

(** C8.  Whichever of Create, Read, Update and Delete runs: a call that
    fails with an error other than the two swallowed [NoSuchEntity]
    cases is the last call that the handler makes (no retry, nothing
    after it) and the handler returns exactly that error value; and
    whenever the handler returns an error, it is the error value of the
    last call it made. *)
Theorem errors_propagate_unchanged op fuel d (s : W) out d' w' :
  run conn op fuel d (start s) = (out, d', w') →
  (∀ pre ev post e,
      snd w' = pre ++ ev :: post → ev_err ev = Some e → tolerated ev = false →
      post = [] ∧ out = Returned (Some e)) ∧
  (∀ e, out = Returned (Some e) →
      ∃ pre ev, snd w' = pre ++ [ev] ∧ ev_err ev = Some e).
Proof.
  destruct op; simpl; intros Hrun.
  - exact (Create_surfaced _ _ _ _ _ _ Hrun).
  - exact (Read_surfaced _ _ _ _ _ _ Hrun).
  - exact (Update_surfaced _ _ _ _ _ _ Hrun).
  - exact (Delete_surfaced _ _ _ _ _ Hrun).
Qed.

(** C4.  When a listing call of Read fails: with code [NoSuchEntity],
    Read returns no error and the record's identity is cleared (nothing
    else in the record changes); with any other error, Read returns that
    error and the record, identity included, is unchanged. *)
Theorem read_listing_failure fuel d (s : W) out d' w' ev e :
  resourceAwsIamGroupMembershipRead conn fuel d (start s) = (out, d', w') →
  ev ∈ snd w' → ev_err ev = Some e →
  if isNoSuchEntity e
  then out = Returned None ∧ Id d' = "" ∧ d' = SetId "" d
  else out = Returned (Some e) ∧ Id d' = Id d ∧ d' = d.
Proof.
  intros Hread Hin He.
  apply Read_post in Hread as (evs & Hl & _ & Hfail & _). simpl in Hl.
  rewrite Hl in Hin. apply list_elem_of_split in Hin as (pre & post & Heq).
  destruct (Hfail pre ev post e Heq He) as [_ Hcase].
  destruct (isNoSuchEntity e); destruct Hcase as [-> ->]; done.
Qed.

(** C9.  When the prior and the current value of [users] are the same
    set, Update is Read: every call it makes is a [GetGroup] call (no
    add, no remove), and [name], [group] and the prior [users] are as
    before. *)
Theorem update_without_change fuel d (s : W) out d' w' :
  default ∅ (rd_users_state d) = Get_users d →
  resourceAwsIamGroupMembershipUpdate conn fuel d (start s) = (out, d', w') →
  resourceAwsIamGroupMembershipRead conn fuel d (start s) = (out, d', w') ∧
  Forall (λ ev, is_GetGroup ev = true ∧ is_Add ev = false ∧ is_Remove ev = false)
         (snd w') ∧
  rd_name d' = rd_name d ∧ rd_group d' = rd_group d ∧
  rd_users_state d' = rd_users_state d.
Proof.
  intros Hsame. unfold resourceAwsIamGroupMembershipUpdate.
  assert (Hno : HasChange_users d = false).
  { unfold HasChange_users, GetChange_users, Get_users in *.
    rewrite Hsame. by rewrite bool_decide_eq_true_2. }
  rewrite Hno. intros Hread. split; [done|].
  apply Read_post in Hread as (evs & -> & Hall & _ & _ & Hfields). simpl.
  split; [|done].
  eapply Forall_impl; [exact Hall|]. intros ev. unfold is_GetGroup, is_Add, is_Remove.
  by destruct (ev_call ev).
Qed.

End Claims.

Section Reconcile.

Context {W : Type}.
Variable conn : IAM W.




Lemma Update_unfold fuel d (w : World) :
  resourceAwsIamGroupMembershipUpdate conn fuel d w =
  if HasChange_users d then
    match removeUsersFromGroup conn
            (Set_List (Set_Difference (default ∅ (rd_users_state d)) (Get_users d)))
            (Get_group d) w with
    | (Some err, w1) => (Returned (Some err), d, w1)
    | (None, w1) =>
        match addUsersToGroup conn
                (Set_List (Set_Difference (Get_users d) (default ∅ (rd_users_state d))))
                (Get_group d) w1 with
        | (Some err, w2) => (Returned (Some err), d, w2)
        | (None, w2) => resourceAwsIamGroupMembershipRead conn fuel d w2
        end
    end
  else resourceAwsIamGroupMembershipRead conn fuel d w.
Proof. reflexivity. Qed.


(** Delete: the record is not written; the removal calls go through the
    members in turn and stop at the first call that fails, whose error
    is returned unless its code is [NoSuchEntity]. *)
Lemma Delete_calls d (s : W) out d' w' :
  resourceAwsIamGroupMembershipDelete conn d (start s) = (out, d', w') →
  let users := Set_List (Get_users d) in
  let group := Get_group d in
  d' = d ∧
  ((out = Returned None ∧ snd w' = map (removal group None) users)
   ∨ (∃ pre u post e,
         users = pre ++ u :: post ∧
         snd w' = map (removal group None) pre ++ [removal group (Some e) u] ∧
         out = Returned (if isNoSuchEntity e then None else Some e))).
Proof.
  unfold resourceAwsIamGroupMembershipDelete, expandStringList.
  destruct (removeUsersFromGroup conn _ _ (start s)) as [r w1] eqn:Hrm.
  intros [= <- <- <-]. split; [done|].
  destruct (removeUsersFromGroup_log _ _ _ _ _ _ Hrm)
    as [[-> Hl]|(pre & u & post & e & Hsplit & -> & Hl)]; simpl in Hl.
  - by left.
  - right. by exists pre, u, post, e.
Qed.

(** The remove loop returns [nil] at the first [NoSuchEntity] and
    leaves the users after it where they are. *)
Lemma removeUsersFromGroup_stops u users group (w : World) e w1 :
  conn_RemoveUserFromGroup conn (mkUserGroupInput u group) w = (Some e, w1) →
  isNoSuchEntity e = true →
  removeUsersFromGroup conn (u :: users) group w = (None, w1).
Proof. intros Hc Hno. simpl. by rewrite Hc, Hno. Qed.

End Reconcile.

(** C1.  Delete of a record with members alice and bob, when the
    removal of alice answers [NoSuchEntity]: Delete returns [nil] after
    that single call; no removal call is made for bob. *)
Theorem delete_stops_at_first_not_found :
  resourceAwsIamGroupMembershipDelete scriptIAM team
    (start (mkScript [] [] [Some gone; None]))
  = (Returned None, team,
     (mkScript [] [] [None], [removal "devs" (Some gone) "alice"])).
Proof. vm_compute. reflexivity. Qed.

(** ** Pagination *)

Lemma appendUserNames_present ul us :
  Forall (λ u, is_Some (UserName u)) us →
  appendUserNames ul us = Some (ul ++ omap UserName us).
Proof.
  intros Hall. revert ul.
  induction Hall as [|u us [name Hname] _ IH]; intros ul; simpl.
  - by rewrite app_nil_r.
  - rewrite Hname. simpl. rewrite IH, <- app_assoc. done.
Qed.

Lemma appendUserNames_missing ul us :
  ¬ Forall (λ u, is_Some (UserName u)) us → appendUserNames ul us = None.
Proof.
  revert ul. induction us as [|u us IH]; intros ul Hnot; simpl.
  - destruct Hnot. constructor.
  - destruct (UserName u) as [name|] eqn:Hname; [|done].
    apply IH. intros Hall. apply Hnot. constructor; [by rewrite Hname|done].
Qed.

Lemma read_loop_script pre : ∀ last rest adds removes d group fuel marker ul log,
  Forall (λ p, IsTruncated p = Some true) pre →
  IsTruncated last = Some false →
  Forall names_present (pre ++ [last]) →
  length pre < fuel →
  resourceAwsIamGroupMembershipRead_loop scriptIAM fuel d group marker ul
    (mkScript (map inl (pre ++ [last]) ++ rest) adds removes, log)
  = (Returned None,
     snd (Set_users (ul ++ names_of (pre ++ [last])) d),
     (mkScript rest adds removes,
      log ++ map (listing group None) (marker :: map Marker pre))).
Proof.
  induction pre as [|p pre IH];
    intros last rest adds removes d group fuel marker ul log Htrue Hfalse Hnames Hfuel;
    (destruct fuel as [|fuel]; [simpl in Hfuel; lia|]).
  - simpl in Hnames. rewrite Forall_singleton in Hnames.
    simpl. unfold conn_GetGroup. simpl.
    rewrite (appendUserNames_present _ _ Hnames), Hfalse. simpl.
    unfold names_of. simpl. by rewrite app_nil_r.
  - rewrite Forall_cons in Htrue. destruct Htrue as [Hp Htrue].
    change ((p :: pre) ++ [last]) with (p :: (pre ++ [last])) in *.
    rewrite Forall_cons in Hnames. destruct Hnames as [Hnp Hnames].
    simpl. unfold conn_GetGroup. simpl.
    rewrite (appendUserNames_present _ _ Hnp), Hp.
    rewrite (IH last rest adds removes d group fuel (Marker p)
               (ul ++ omap UserName (Users p))
               (log ++ [listing group None marker]) Htrue Hfalse Hnames);
      [|simpl in Hfuel; lia].
    unfold names_of. simpl. rewrite <- !app_assoc. done.
Qed.

(** C3.  The client answers the listing calls with the pages
    [pre ++ [last]], where every page of [pre] says "truncated", [last]
    says "not truncated", and every entry has a username.  Then Read
    (given at least as many iterations as there are pages) returns no
    error; the record's [users] is the set of the usernames of all these
    pages; Read has made one listing call per page, the first without a
    marker and each later one with the marker of the page before it; and
    whatever the client would answer after [last] is never asked for. *)
Theorem read_aggregates_pages pre last rest adds removes d fuel :
  Forall (λ p, IsTruncated p = Some true) pre →
  IsTruncated last = Some false →
  Forall names_present (pre ++ [last]) →
  length pre < fuel →
  ∃ d',
    resourceAwsIamGroupMembershipRead scriptIAM fuel d
      (start (mkScript (map inl (pre ++ [last]) ++ rest) adds removes))
    = (Returned None, d',
       (mkScript rest adds removes,
        map (listing (Get_group d) None) (None :: map Marker pre))) ∧
    rd_users d' = Some (list_to_set (names_of (pre ++ [last]))) ∧
    rd_id d' = rd_id d ∧ rd_name d' = rd_name d ∧ rd_group d' = rd_group d ∧
    rd_users_state d' = rd_users_state d.
Proof.
  intros Htrue Hfalse Hnames Hfuel.
  eexists. split.
  - unfold resourceAwsIamGroupMembershipRead, start.
    by rewrite (read_loop_script pre last rest adds removes d (Get_group d)
                  fuel None [] [] Htrue Hfalse Hnames Hfuel).
  - done.
Qed.

(** ** Nil dereferences in Read *)

Section ReadSafety.

Context {W : Type}.
Variable conn : IAM W.

Lemma read_loop_no_panic :
  (∀ i s p s', iam_GetGroup conn i s = (inl p, s') → page_ok p) →
  ∀ fuel d group marker ul (w : World),
    (resourceAwsIamGroupMembershipRead_loop conn fuel d group marker ul w).1.1
      ≠ Panicked.
Proof.
  intros Hok. induction fuel as [|fuel IH]; intros d group marker ul w; simpl.
  - done.
  - unfold conn_GetGroup.
    destruct (iam_GetGroup conn _ (fst w)) as [[resp|err] s1] eqn:Hc.
    + destruct (Hok _ _ _ _ Hc) as [[b Hb] Hnames].
      rewrite (appendUserNames_present _ _ Hnames), Hb.
      destruct b; [apply IH|done].
    + by destruct (isNoSuchEntity err).
Qed.

(** C10.  In the model the dereferences of [resp.IsTruncated] and of
    each [u.UserName] are guarded: Read panics when a page lacks one.
    When every page that the client returns has its truncation flag and
    a username in every entry, Read does not panic, whatever the number
    of iterations; when the first page lacks the flag or a username,
    Read panics. *)
Theorem read_panics_only_on_missing_fields fuel d (s : W) :
  ((∀ i s0 p s', iam_GetGroup conn i s0 = (inl p, s') → page_ok p) →
   (resourceAwsIamGroupMembershipRead conn fuel d (start s)).1.1 ≠ Panicked) ∧
  (∀ p s',
     iam_GetGroup conn (mkGetGroupInput (Get_group d) None) s = (inl p, s') →
     ¬ page_ok p →
     (resourceAwsIamGroupMembershipRead conn (S fuel) d (start s)).1.1 = Panicked).
Proof.
  split.
  - intros Hok. by apply read_loop_no_panic.
  - intros p s' Hc Hnot.
    unfold resourceAwsIamGroupMembershipRead. simpl.
    unfold conn_GetGroup. simpl. rewrite Hc.
    destruct (decide (Forall (λ u, is_Some (UserName u)) (Users p))) as [Hn|Hn].
    + rewrite (appendUserNames_present _ _ Hn).
      destruct (IsTruncated p) as [b|] eqn:Hb; [|done].
      destruct Hnot. split; [by rewrite Hb|done].
    + by rewrite (appendUserNames_missing _ _ Hn).
Qed.

End ReadSafety.

(** ** Import *)

Lemma length_zero_iff_empty (s : string) :
  Nat.eqb (String.length s) 0 = true ↔ s = "".
Proof. destruct s; simpl; split; done. Qed.

Section ImportClaims.

Context {G : Type}.
Variable UniqueId : G → string * G.
Hypothesis UniqueId_nonempty : ∀ g, (UniqueId g).1 ≠ "".

(** C5.  Import fails exactly when the supplied identifier is empty,
    and then with the format error.  For a non-empty identifier [s] it
    returns one record: its [group] is [s], its identity is the token
    that the generator produced at this call (non-empty, as the
    generator's tokens are), and its [users] is unset. *)
Theorem import_fails_iff_empty (s : string) (g : G) :
  ((∃ e, (resourceAwsIamGroupMembershipImport UniqueId (importRecord s) g).1
         = inr e) ↔ s = "") ∧
  (s = "" →
   resourceAwsIamGroupMembershipImport UniqueId (importRecord s) g
   = (inr (FmtError ("unexpected format of ID (" +:+ dquote +:+ dquote
                     +:+ "), expected <group-name>")), g)) ∧
  (s ≠ "" →
   ∃ d', resourceAwsIamGroupMembershipImport UniqueId (importRecord s) g
         = (inl [d'], (UniqueId g).2) ∧
         rd_group d' = Some s ∧
         Id d' = (UniqueId g).1 ∧ Id d' ≠ "" ∧
         rd_users d' = None ∧ rd_users_state d' = None).
Proof.
  unfold resourceAwsIamGroupMembershipImport. simpl.
  pose proof (UniqueId_nonempty g) as Hfresh.
  destruct (UniqueId g) as [id g'] eqn:Hid. simpl in *.
  destruct (Nat.eqb (String.length s) 0) eqn:Hlen.
  - apply length_zero_iff_empty in Hlen. subst s. split_and!.
    + split; [done|]. intros _. by eexists.
    + done.
    + done.
  - assert (Hne : s ≠ "").
    { intros Hs. apply length_zero_iff_empty in Hs. congruence. }
    split_and!.
    + split; [|done]. by intros [e ?].
    + done.
    + intros _. eexists. split_and!; done.
Qed.

End ImportClaims.

Lemma sdkUniqueId_nonempty counter : (sdkUniqueId counter).1 ≠ "".
Proof. done. Qed.

(** ** Create and Read against the identity service *)

Lemma drop_through_app m (a b : list string) :
  m ∉ a → drop_through m (a ++ m :: b) = b.
Proof.
  induction a as [|x a IH]; simpl; intros Hnot.
  - by rewrite bool_decide_eq_true_2.
  - apply not_elem_of_cons in Hnot as [Hne Hnot].
    rewrite bool_decide_eq_false_2 by congruence. by apply IH.
Qed.

Lemma appendUserNames_named ul (page : list string) :
  appendUserNames ul (map (λ u, mkUser (Some u)) page) = Some (ul ++ page).
Proof.
  revert ul. induction page as [|u page IH]; intros ul; simpl.
  - by rewrite app_nil_r.
  - rewrite IH, <- app_assoc. done.
Qed.

(** What the service has yet to list after it handed out [marker]. *)
Lemma sim_rest (l ul rest : list string) :
  NoDup l → l = ul ++ rest →
  match last ul with None => l | Some m => drop_through m l end = rest.
Proof.
  intros Hnd ->. destruct ul as [|x ul _] using rev_ind; [done|].
  rewrite last_snoc, <- app_assoc. simpl. apply drop_through_app.
  rewrite <- app_assoc in Hnd. simpl in Hnd.
  apply NoDup_app in Hnd as (_ & Hdisj & _).
  intros Hin. apply (Hdisj x Hin). by left.
Qed.

Section Service.

Variable pageSize : nat.
Hypothesis pageSize_pos : 0 < pageSize.

Lemma sim_read_loop (s : gmap string (gset string)) group members d :
  s !! group = Some members →
  ∀ fuel ul rest log,
    elements members = ul ++ rest → length rest < fuel →
    ∃ gets,
      resourceAwsIamGroupMembershipRead_loop (simIAM pageSize) fuel d group
        (last ul) ul (s, log)
      = (Returned None, snd (Set_users (elements members) d),
         (s, log ++ gets)) ∧
      Forall (λ ev, ev_err ev = None) gets.
Proof.
  intros Hs. induction fuel as [|fuel IH]; intros ul rest log Hl Hfuel; [lia|].
  simpl. unfold conn_GetGroup. simpl. rewrite Hs. unfold sim_page. simpl.
  rewrite (sim_rest (elements members) ul rest (NoDup_elements _) Hl).
  rewrite appendUserNames_named.
  destruct (decide (pageSize < length rest)) as [Hmore|Hlast].
  - rewrite bool_decide_eq_true_2 by done.
    assert (Hpage : take pageSize rest ≠ []).
    { intros Hnil. apply (f_equal length) in Hnil.
      rewrite length_take in Hnil. simpl in Hnil. lia. }
    assert (Hmarker : last (take pageSize rest) = last (ul ++ take pageSize rest)).
    { rewrite last_app. destruct (last (take pageSize rest)) eqn:Hlast; [done|].
      by apply last_None in Hlast. }
    rewrite Hmarker.
    destruct (IH (ul ++ take pageSize rest) (drop pageSize rest)
                 (log ++ [listing group None (last ul)]))
      as (gets & Hrun & Hok).
    { by rewrite <- app_assoc, take_drop. }
    { rewrite length_drop. lia. }
    exists (listing group None (last ul) :: gets). split.
    + etrans; [exact Hrun|]. by rewrite <- app_assoc.
    + by constructor.
  - rewrite bool_decide_eq_false_2 by done.
    rewrite take_ge by lia. rewrite <- Hl.
    exists [listing group None (last ul)]. split; [done|].
    by repeat constructor.
Qed.

Lemma sim_adds group users :
  ∀ (s : gmap string (gset string)) members log,
    s !! group = Some members →
    addUsersToGroup (simIAM pageSize) users group (s, log)
    = (None, (<[group := list_to_set users ∪ members]> s,
              log ++ map (addition group None) users)).
Proof.
  induction users as [|u users IH]; intros s members log Hs; simpl.
  - rewrite app_nil_r, union_empty_l_L, insert_id; done.
  - unfold conn_AddUserToGroup. simpl. rewrite Hs.
    rewrite (IH _ ({[u]} ∪ members)) by apply lookup_insert_eq.
    rewrite insert_insert_eq, <- app_assoc. simpl.
    by rewrite (assoc_L (∪)), (comm_L (∪) (list_to_set users)).
Qed.

(** C7 (as amended).  On a service where the group exists with members
    [M], Create with desired set [D] (and enough iterations for the
    listing) succeeds without a failed call; the group then has the
    members [D ∪ M], and so has the record's [users]; a Read that
    follows changes nothing in the record.  When the group had no
    member outside [D], the record's [users] is [D]. *)
Theorem create_yields_observed_membership fuel d
    (s : gmap string (gset string)) (M : gset string) :
  s !! Get_group d = Some M →
  size (Get_users d ∪ M) < fuel →
  ∃ d' w',
    resourceAwsIamGroupMembershipCreate (simIAM pageSize) fuel d (start s)
    = (Returned None, d', w') ∧
    Forall (λ ev, ev_err ev = None) (snd w') ∧
    fst w' !! Get_group d = Some (Get_users d ∪ M) ∧
    rd_users d' = Some (Get_users d ∪ M) ∧
    Id d' = Get_name d ∧
    (resourceAwsIamGroupMembershipRead (simIAM pageSize) fuel d' w').1
    = (Returned None, d') ∧
    (M ⊆ Get_users d → rd_users d' = Some (Get_users d)).
Proof.
  intros Hs Hfuel.
  set (D := Get_users d) in *. set (group := Get_group d) in *.
  assert (Hs' : <[group := D ∪ M]> s !! group = Some (D ∪ M))
    by apply lookup_insert_eq.
  assert (Hadd : addUsersToGroup (simIAM pageSize) (Set_List D) group (start s)
                 = (None, (<[group := D ∪ M]> s, map (addition group None) (Set_List D)))).
  { unfold start. rewrite (sim_adds group (Set_List D) s M [] Hs).
    unfold Set_List. by rewrite list_to_set_elements_L. }
  destruct (sim_read_loop _ group (D ∪ M) (SetId (Get_name d) d) Hs' fuel []
              (elements (D ∪ M)) (map (addition group None) (Set_List D)))
    as (gets & Hrun & Hok); [done|done|].
  destruct (sim_read_loop _ group (D ∪ M)
              (snd (Set_users (elements (D ∪ M)) (SetId (Get_name d) d)))
              Hs' fuel [] (elements (D ∪ M))
              (map (addition group None) (Set_List D) ++ gets))
    as (gets' & Hrun' & _); [done|done|].
  eexists _, _. split_and!.
  - unfold resourceAwsIamGroupMembershipCreate, expandStringList.
    fold D group. rewrite Hadd.
    unfold resourceAwsIamGroupMembershipRead. exact Hrun.
  - simpl. apply Forall_app. split; [|done].
    apply Forall_map, Forall_true. done.
  - done.
  - simpl. by rewrite list_to_set_elements_L.
  - done.
  - exact (f_equal fst Hrun').
  - intros Hsub. simpl. rewrite list_to_set_elements_L.
    by rewrite (comm_L (∪)), (subseteq_union_1_L _ _ Hsub).
Qed.

End Service.

(** ** The statements at sample inputs *)


Lemma read_aggregates_pages_witness :
  ∃ d',
    resourceAwsIamGroupMembershipRead scriptIAM 2 team
      (start (mkScript (map inl ([page1] ++ [page2]) ++ [inr denied]) [] []))
    = (Returned None, d',
       (mkScript [inr denied] [] [],
        map (listing (Get_group team) None) (None :: map Marker [page1]))) ∧
    rd_users d' = Some (list_to_set (names_of ([page1] ++ [page2]))) ∧
    rd_id d' = rd_id team ∧ rd_name d' = rd_name team ∧
    rd_group d' = rd_group team ∧
    rd_users_state d' = rd_users_state team.
Proof.
  apply (read_aggregates_pages [page1] page2 [inr denied] [] [] team 2).
  - repeat constructor.
  - reflexivity.
  - repeat constructor; simpl; eauto.
  - simpl. lia.
Defined.

Lemma read_listing_failure_witness :
  resourceAwsIamGroupMembershipRead scriptIAM 5 team
    (start (mkScript [inl page1; inr (noSuchGroup "devs")] [] []))
  = (Returned None, SetId "" team,
     (mkScript [] [] [],
      [listing "devs" None None;
       listing "devs" (Some (noSuchGroup "devs")) (Some "m1")])) ∧
  Id (SetId "" team) = "".
Proof.
  assert (Hrun :
    resourceAwsIamGroupMembershipRead scriptIAM 5 team
      (start (mkScript [inl page1; inr (noSuchGroup "devs")] [] []))
    = (Returned None, SetId "" team,
       (mkScript [] [] [],
        [listing "devs" None None;
         listing "devs" (Some (noSuchGroup "devs")) (Some "m1")])))
    by (vm_compute; reflexivity).
  split; [exact Hrun|].
  pose proof (read_listing_failure scriptIAM 5 team _ _ _ _
                (listing "devs" (Some (noSuchGroup "devs")) (Some "m1"))
                (noSuchGroup "devs") Hrun) as H.
  simpl in H. apply H; [|reflexivity].
  apply list_elem_of_In. simpl. tauto.
Defined.

Lemma import_fails_iff_empty_witness :
  ∃ d',
    resourceAwsIamGroupMembershipImport sdkUniqueId (importRecord "my-group") 0
    = (inl [d'], 1) ∧
    rd_group d' = Some "my-group" ∧
    Id d' = "terraform-0" ∧ Id d' ≠ "" ∧
    rd_users d' = None ∧ rd_users_state d' = None.
Proof.
  destruct (import_fails_iff_empty sdkUniqueId sdkUniqueId_nonempty "my-group" 0)
    as (_ & _ & Hok).
  apply Hok. done.
Defined.


Lemma sim_page_ok pageSize i (s : gmap string (gset string)) p s' :
  iam_GetGroup (simIAM pageSize) i s = (inl p, s') → page_ok p.
Proof.
  simpl. destruct (s !! gg_GroupName i); intros [= <- <-].
  split; simpl; [by eexists|].
  apply Forall_map, Forall_true. intros u. by eexists.
Qed.

Lemma create_yields_observed_membership_witness :
  ∃ d' w',
    resourceAwsIamGroupMembershipCreate (simIAM 2) 5 team
      (start {["devs" := {["alice"]}]})
    = (Returned None, d', w') ∧
    Forall (λ ev, ev_err ev = None) (snd w') ∧
    rd_users d' = Some (Get_users team).
Proof.
  destruct (create_yields_observed_membership 2 ltac:(lia) 5 team
              {["devs" := {["alice"]}]} {["alice"]})
    as (d' & w' & Hrun & Hok & _ & _ & _ & _ & Hsame).
  - reflexivity.
  - vm_compute. lia.
  - exists d', w'. split; [exact Hrun|]. split; [exact Hok|].
    apply Hsame. apply (bool_decide_unpack _). vm_compute. exact I.
Defined.

(** C7 as stated fails when the group has a member outside the desired
    set: the group devs has the member zed, the desired set is alice
    and bob; no call fails, Create and the Read after it both return
    [nil], and the record's [users] is alice, bob and zed. *)
Lemma create_then_read_counterexample :
  ∃ d' w',
    resourceAwsIamGroupMembershipCreate (simIAM 2) 5 team
      (start {["devs" := {["zed"]}]})
    = (Returned None, d', w') ∧
    Forall (λ ev, ev_err ev = None) (snd w') ∧
    (resourceAwsIamGroupMembershipRead (simIAM 2) 5 d' w').1
    = (Returned None, d') ∧
    rd_users d' = Some {["alice"; "bob"; "zed"]} ∧
    rd_users d' ≠ Some (Get_users team).
Proof.
  eexists _, _. split; [vm_compute; reflexivity|].
  split; [by repeat constructor|].
  split; [vm_compute; reflexivity|].
  split; [vm_compute; reflexivity|].
  apply (bool_decide_eq_false_1 _). vm_compute. reflexivity.
Qed.

Lemma errors_propagate_unchanged_witness :
  run scriptIAM OpUpdate 2 moved (start (mkScript [] [Some denied] [Some gone]))
  = (Returned (Some denied), moved,
     (mkScript [] [] [],
      [removal "devs" (Some gone) "alice";
       addition "devs" (Some denied) "carol"])) ∧
  ∃ pre ev,
    [removal "devs" (Some gone) "alice"; addition "devs" (Some denied) "carol"]
    = pre ++ [ev] ∧ ev_err ev = Some denied.
Proof.
  assert (Hrun :
    run scriptIAM OpUpdate 2 moved
      (start (mkScript [] [Some denied] [Some gone]))
    = (Returned (Some denied), moved,
       (mkScript [] [] [],
        [removal "devs" (Some gone) "alice";
         addition "devs" (Some denied) "carol"])))
    by (vm_compute; reflexivity).
  split; [exact Hrun|].
  destruct (errors_propagate_unchanged scriptIAM OpUpdate 2 moved _ _ _ _ Hrun)
    as [_ Hret].
  exact (Hret denied eq_refl).
Defined.

Lemma update_without_change_witness :
  resourceAwsIamGroupMembershipRead scriptIAM 2 team
    (start (mkScript [inl page2] [None] [None]))
  = (Returned None, snd (Set_users ["bob"; "carol"] team),
     (mkScript [] [None] [None], [listing "devs" None None])) ∧
  Forall (λ ev, is_GetGroup ev = true ∧ is_Add ev = false ∧ is_Remove ev = false)
         [listing "devs" None None].
Proof.
  assert (Hrun :
    resourceAwsIamGroupMembershipUpdate scriptIAM 2 team
      (start (mkScript [inl page2] [None] [None]))
    = (Returned None, snd (Set_users ["bob"; "carol"] team),
       (mkScript [] [None] [None], [listing "devs" None None])))
    by (vm_compute; reflexivity).
  destruct (update_without_change scriptIAM 2 team _ _ _ _ eq_refl Hrun)
    as (Hread & Hcalls & _).
  split; [exact Hread|exact Hcalls].
Defined.

Lemma read_panics_only_on_missing_fields_witness :
  (resourceAwsIamGroupMembershipRead (simIAM 1) 3 team
     (start {["devs" := {["zed"]}]})).1.1 ≠ Panicked ∧
  (resourceAwsIamGroupMembershipRead scriptIAM 1 team
     (start (mkScript [inl page_bad] [] []))).1.1 = Panicked.
Proof.
  split.
  - apply (proj1 (read_panics_only_on_missing_fields (simIAM 1) 3 team
                    {["devs" := {["zed"]}]})).
    intros i s0 p s'. apply sim_page_ok.
  - apply (proj2 (read_panics_only_on_missing_fields scriptIAM 0 team
                    (mkScript [inl page_bad] [] []))
             page_bad (mkScript [] [] []) eq_refl).
    intros [_ Hnames]. unfold page_bad in Hnames. simpl in Hnames.
    rewrite !Forall_cons in Hnames. destruct Hnames as (_ & [x Hx] & _).
    discriminate Hx.
Defined.

(** * Further properties of the handlers *)

Section Frame.

Context {W : Type}.
Variable conn : IAM W.

(** One run of the listing loop: its calls name [group], there are at
    most [fuel] of them, and the record is written only on [nil]. *)
Lemma read_loop_frame fuel d group marker ul (w : World) out d' w' :
  resourceAwsIamGroupMembershipRead_loop conn fuel d group marker ul w
    = (out, d', w') →
  ∃ evs,
    snd w' = snd w ++ evs ∧
    Forall (λ ev, call_group (ev_call ev) = group) evs ∧
    (length evs ≤ fuel)%nat ∧
    ((out = Returned None ∧
      (d' = SetId "" d ∨ ∃ ul', d' = snd (Set_users ul' d)))
     ∨ (out ≠ Returned None ∧ d' = d)).
Proof.
  revert marker ul w. induction fuel as [|fuel IH]; intros marker ul w; simpl.
  - intros [= <- <- <-]. exists []. rewrite app_nil_r.
    split_and!; [done|constructor|done|by right].
  - destruct (conn_GetGroup conn _ w) as [[resp|err] w1] eqn:Hc;
      apply conn_GetGroup_log in Hc.
    + assert (Hone : ∀ o dd,
                (o = Returned None ∧
                 (dd = SetId "" d ∨ ∃ ul', dd = snd (Set_users ul' d))
                 ∨ o ≠ Returned None ∧ dd = d) →
                (o, dd, w1) = (out, d', w') →
                ∃ evs, snd w' = snd w ++ evs ∧
                  Forall (λ ev, call_group (ev_call ev) = group) evs ∧
                  (length evs ≤ S fuel)%nat ∧
                  ((out = Returned None ∧
                    (d' = SetId "" d ∨ ∃ ul', d' = snd (Set_users ul' d)))
                   ∨ (out ≠ Returned None ∧ d' = d))).
      { intros o dd Hcase [= <- <- <-]. eexists. split; [exact Hc|].
        split_and!; [by repeat constructor|simpl; lia|done]. }
      destruct (appendUserNames ul (Users resp)) as [ul'|];
        [|by apply Hone; right].
      destruct (IsTruncated resp) as [[|]|]; [| |by apply Hone; right].
      * intros Hrec. destruct (IH _ _ _ Hrec) as (evs & Hl & Hall & Hlen & Hcase).
        eexists (_ :: evs). split.
        { rewrite Hl, Hc, <- app_assoc. reflexivity. }
        split_and!; [by constructor|simpl; lia|done].
      * apply Hone. left. split; [done|]. right. by exists ul'.
    + destruct (isNoSuchEntity err); intros [= <- <- <-];
        (eexists; split; [exact Hc|]);
        (split_and!; [by repeat constructor|simpl; lia|]).
      * left. split; [done|by left].
      * by right.
Qed.

Lemma users_split_length (users pre post : list string) u :
  users = pre ++ u :: post → (length pre + 1 ≤ length users)%nat.
Proof. intros ->. rewrite length_app. simpl. lia. Qed.

Lemma Forall_additions group (P : Event → Prop) users :
  (∀ u, P (addition group None u)) → Forall P (map (addition group None) users).
Proof. intros HP. apply Forall_map, Forall_true. intros u. apply HP. Qed.

Lemma Forall_removals group (P : Event → Prop) users :
  (∀ u, P (removal group None u)) → Forall P (map (removal group None) users).
Proof. intros HP. apply Forall_map, Forall_true. intros u. apply HP. Qed.

(** The record after a run of the listing loop, as [record_frame]
    wants it. *)
Lemma read_case_frame op d0 d out d' :
  rd_name d = rd_name d0 → rd_group d = rd_group d0 →
  rd_users_state d = rd_users_state d0 → rd_users d = rd_users d0 →
  (rd_id d = rd_id d0 ∨ rd_id d = "" ∨ (op = OpCreate ∧ rd_id d = Get_name d0)) →
  op ≠ OpDelete →
  ((out = Returned None ∧
    (d' = SetId "" d ∨ ∃ ul', d' = snd (Set_users ul' d)))
   ∨ (out ≠ Returned None ∧ d' = d)) →
  record_frame op d0 out d'.
Proof.
  intros Hn Hg Hs Hu Hid Hop [[-> [->|[ul' ->]]]|[Hout ->]];
    unfold record_frame; simpl; split_and!; try done; tauto.
Qed.

Lemma run_frame op fuel d (s : W) out d' w' :
  run conn op fuel d (start s) = (out, d', w') →
  Forall (λ ev, call_group (ev_call ev) = Get_group d) (snd w') ∧
  (length (snd w') ≤ call_budget op fuel d)%nat ∧
  record_frame op d out d'.
Proof.
  destruct op; simpl.
  - unfold resourceAwsIamGroupMembershipCreate, expandStringList, call_budget.
    destruct (addUsersToGroup conn _ _ (start s)) as [r w1] eqn:Hadd.
    destruct (addUsersToGroup_log _ _ _ _ _ _ Hadd)
      as [[-> Hl]|(pre & u & post & e & Hsplit & -> & Hl)]; simpl in Hl.
    + intros Hread. apply read_loop_frame in Hread
        as (evs & -> & Hall & Hlen & Hcase).
      rewrite Hl. split_and!.
      * apply Forall_app. split; [by apply Forall_additions|done].
      * rewrite length_app, length_map. unfold Set_List, size, set_size.
        simpl. lia.
      * eapply read_case_frame; [..|exact Hcase]; simpl; try done.
        right. right. done.
    + intros [= <- <- <-]. rewrite Hl. split_and!.
      * apply Forall_app. split; [by apply Forall_additions|by repeat constructor].
      * rewrite length_app, length_map. simpl.
        apply users_split_length in Hsplit.
        unfold Set_List, size, set_size in *. simpl in *. lia.
      * unfold record_frame. split_and!; try done. by left.
  - intros Hread. apply read_loop_frame in Hread
      as (evs & -> & Hall & Hlen & Hcase). simpl. split_and!; [done|done|].
    eapply read_case_frame; [..|exact Hcase]; try done. by left.
  - rewrite Update_unfold. unfold call_budget.
    destruct (HasChange_users d).
    + destruct (removeUsersFromGroup conn _ _ (start s)) as [r w1] eqn:Hrm.
      assert (Hrm' : ∃ k, (k ≤ size (default ∅ (rd_users_state d) ∖ Get_users d))%nat ∧
                 length (snd w1) = k ∧
                 Forall (λ ev, call_group (ev_call ev) = Get_group d) (snd w1)).
      { destruct (removeUsersFromGroup_log _ _ _ _ _ _ Hrm)
          as [[_ Hl]|(pre & u & post & e & Hsplit & _ & Hl)]; simpl in Hl;
          rewrite Hl; eexists; (split; [|split; [reflexivity|]]).
        - rewrite length_map. done.
        - by apply Forall_removals.
        - rewrite length_app, length_map. simpl.
          apply users_split_length in Hsplit.
          unfold Set_List, Set_Difference, size, set_size in *. simpl in *. lia.
        - apply Forall_app. split; [by apply Forall_removals|by repeat constructor]. }
      destruct Hrm' as (k & Hk & Hlen1 & Hall1).
      destruct r as [e|].
      * intros [= <- <- <-]. split_and!; [done|lia|].
        unfold record_frame. split_and!; try done. by left.
      * destruct (addUsersToGroup conn _ _ w1) as [r2 w2] eqn:Hadd.
        destruct (addUsersToGroup_log _ _ _ _ _ _ Hadd)
          as [[-> Hl]|(pre & u & post & e & Hsplit & -> & Hl)].
        -- intros Hread. apply read_loop_frame in Hread
             as (evs & -> & Hall & Hlen & Hcase).
           rewrite Hl. split_and!.
           ++ rewrite !Forall_app. split_and!; [done|by apply Forall_additions|done].
           ++ rewrite !length_app, length_map.
              unfold Set_List, Set_Difference, size, set_size in *. simpl in *. lia.
           ++ eapply read_case_frame; [..|exact Hcase]; try done. by left.
        -- intros [= <- <- <-]. rewrite Hl. split_and!.
           ++ rewrite !Forall_app. split_and!;
                [done|by apply Forall_additions|by repeat constructor].
           ++ rewrite !length_app, length_map. simpl.
              apply users_split_length in Hsplit.
              unfold Set_List, Set_Difference, size, set_size in *. simpl in *. lia.
           ++ unfold record_frame. split_and!; try done. by left.
    + intros Hread. apply read_loop_frame in Hread
        as (evs & -> & Hall & Hlen & Hcase). simpl. split_and!; [done|lia|].
      eapply read_case_frame; [..|exact Hcase]; try done. by left.
  - intros Hdel. apply Delete_calls in Hdel. cbv zeta in Hdel.
    destruct Hdel as [-> [[-> Hl]|(pre & u & post & e & Hsplit & Hl & ->)]];
      rewrite Hl; unfold call_budget.
    + split_and!.
      * by apply Forall_removals.
      * rewrite length_map. done.
      * unfold record_frame. split_and!; try done. by left.
    + split_and!.
      * apply Forall_app. split; [by apply Forall_removals|by repeat constructor].
      * rewrite length_app, length_map. simpl.
        apply users_split_length in Hsplit.
        unfold Set_List, size, set_size in *. simpl in *. lia.
      * unfold record_frame. split_and!; try done. by left.
Qed.

End Frame.

Section FrameTheorems.

Context {W : Type}.
Variable conn : IAM W.

(** X1.  Delete never returns a [NoSuchEntity] error: when Delete
    returns an error, its code is another one, it is the error of the
    last removal call, every removal call before it succeeded, and the
    record is as it was. *)
Theorem delete_never_returns_not_found d (s : W) e d' w' :
  resourceAwsIamGroupMembershipDelete conn d (start s)
    = (Returned (Some e), d', w') →
  isNoSuchEntity e = false ∧ d' = d ∧
  ∃ pre u post,
    Set_List (Get_users d) = pre ++ u :: post ∧
    snd w' = map (removal (Get_group d) None) pre
             ++ [removal (Get_group d) (Some e) u].
Proof.
  intros Hdel. apply Delete_calls in Hdel. cbv zeta in Hdel.
  destruct Hdel as [-> [[Hout _]|(pre & u & post & e' & Hsplit & Hl & Hout)]];
    [done|].
  destruct (isNoSuchEntity e') eqn:Hno; [done|]. injection Hout as ->.
  split; [done|]. split; [done|]. by exists pre, u, post.
Qed.

(** X2.  Every call that Create, Read, Update or Delete makes names the
    group of the record: no handler lists, adds to or removes from
    another group. *)
Theorem calls_name_the_records_group op fuel d (s : W) :
  Forall (λ ev, call_group (ev_call ev) = Get_group d)
         (run conn op fuel d (start s)).2.2.
Proof.
  destruct (run conn op fuel d (start s)) as [[out d'] w'] eqn:Hrun.
  by destruct (run_frame conn _ _ _ _ _ _ _ Hrun) as (Hall & _ & _).
Qed.

(** X3.  What the handlers write in the record: [name], [group] and the
    prior [users] never; [users] only when the handler returns [nil];
    the identity stays, is cleared, or (in Create only) becomes the
    configured name; Delete writes nothing at all. *)
Theorem handlers_write_only_id_and_users op fuel d (s : W) :
  let out := (run conn op fuel d (start s)).1.1 in
  let d' := (run conn op fuel d (start s)).1.2 in
  rd_name d' = rd_name d ∧ rd_group d' = rd_group d ∧
  rd_users_state d' = rd_users_state d ∧
  (out ≠ Returned None → rd_users d' = rd_users d) ∧
  (rd_id d' = rd_id d ∨ rd_id d' = "" ∨
   (op = OpCreate ∧ rd_id d' = Get_name d)) ∧
  (op = OpDelete → d' = d).
Proof.
  destruct (run conn op fuel d (start s)) as [[out d'] w'] eqn:Hrun.
  by destruct (run_frame conn _ _ _ _ _ _ _ Hrun) as (_ & _ & Hframe).
Qed.

(** X4.  The number of calls of one operation is bounded: Delete makes
    at most one call per recorded member, Create at most one add call
    per desired member, Update at most one call per member of the two
    differences, and the listing loop one call per iteration. *)
Theorem calls_within_budget op fuel d (s : W) :
  (length (run conn op fuel d (start s)).2.2 ≤ call_budget op fuel d)%nat.
Proof.
  destruct (run conn op fuel d (start s)) as [[out d'] w'] eqn:Hrun.
  by destruct (run_frame conn _ _ _ _ _ _ _ Hrun) as (_ & Hlen & _).
Qed.

Lemma read_loop_stuck :
  (∀ i s, ∃ p s', iam_GetGroup conn i s = (inl p, s') ∧
                  IsTruncated p = Some true ∧ names_present p) →
  ∀ fuel d group marker ul (w : World),
    ∃ w', resourceAwsIamGroupMembershipRead_loop conn fuel d group marker ul w
          = (OutOfFuel, d, w') ∧
          length (snd w') = (length (snd w) + fuel)%nat.
Proof.
  intros Hstuck. induction fuel as [|fuel IH]; intros d group marker ul w; simpl.
  - exists w. split; [done|lia].
  - unfold conn_GetGroup.
    destruct (Hstuck (mkGetGroupInput group marker) (fst w))
      as (p & s' & -> & Htrue & Hnames).
    rewrite (appendUserNames_present _ _ Hnames), Htrue.
    destruct (IH d group (Marker p) (ul ++ omap UserName (Users p))
                (s', snd w ++ [mkEvent (CallGetGroup (mkGetGroupInput group marker)) None]))
      as (w' & Hrun & Hlen).
    exists w'. split; [exact Hrun|].
    rewrite Hlen. simpl. rewrite length_app. simpl. lia.
Qed.

(** X5.  The listing loop has no bound of its own: against a client
    that answers every listing call with a page marked as truncated,
    Read uses up every number of iterations it is given, one call per
    iteration, without returning and without writing the record. *)
Theorem read_never_returns_on_endless_listing fuel d (s : W) :
  (∀ i s0, ∃ p s', iam_GetGroup conn i s0 = (inl p, s') ∧
                   IsTruncated p = Some true ∧ names_present p) →
  ∃ w', resourceAwsIamGroupMembershipRead conn fuel d (start s)
        = (OutOfFuel, d, w') ∧
        length (snd w') = fuel.
Proof.
  intros Hstuck.
  destruct (read_loop_stuck Hstuck fuel d (Get_group d) None [] (start s))
    as (w' & Hrun & Hlen).
  exists w'. split; [exact Hrun|]. simpl in Hlen. lia.
Qed.

End FrameTheorems.

(** ** The handlers against the identity service *)

Lemma sim_removes pageSize group users :
  ∀ (s : gmap string (gset string)) members log,
    s !! group = Some members →
    removeUsersFromGroup (simIAM pageSize) users group (s, log)
    = (None, (<[group := members ∖ list_to_set users]> s,
              log ++ map (removal group None) users)).
Proof.
  induction users as [|u users IH]; intros s members log Hs; simpl.
  - rewrite app_nil_r, difference_empty_L, insert_id; done.
  - unfold conn_RemoveUserFromGroup. simpl. rewrite Hs.
    rewrite (IH _ (members ∖ {[u]})) by apply lookup_insert_eq.
    rewrite insert_insert_eq, <- app_assoc, difference_difference_l_L. done.
Qed.

Section Convergence.

Variable pageSize : nat.
Hypothesis pageSize_pos : 0 < pageSize.

(** Read on a group of the service, from any record. *)
Lemma sim_Read fuel d (s : gmap string (gset string)) M log :
  s !! Get_group d = Some M → size M < fuel →
  ∃ gets,
    resourceAwsIamGroupMembershipRead (simIAM pageSize) fuel d (s, log)
    = (Returned None, snd (Set_users (elements M) d), (s, log ++ gets)) ∧
    Forall (λ ev, ev_err ev = None) gets.
Proof.
  intros Hs Hfuel.
  exact (sim_read_loop pageSize pageSize_pos s (Get_group d) M d Hs fuel []
           (elements M) log eq_refl Hfuel).
Qed.

(** X6.  Read against the service, whatever the record held before:
    Read returns [nil], the record's [users] becomes exactly the
    group's members, the identity is kept, no call fails, and the
    service is left as it was. *)
Theorem read_observes_membership fuel d (s : gmap string (gset string)) M :
  s !! Get_group d = Some M → size M < fuel →
  ∃ d' gets,
    resourceAwsIamGroupMembershipRead (simIAM pageSize) fuel d (start s)
    = (Returned None, d', (s, gets)) ∧
    rd_users d' = Some M ∧ rd_id d' = rd_id d ∧
    Forall (λ ev, ev_err ev = None) gets.
Proof.
  intros Hs Hfuel.
  destruct (sim_Read fuel d s M [] Hs Hfuel) as (gets & Hrun & Hok).
  eexists _, gets. split; [exact Hrun|]. simpl.
  by rewrite list_to_set_elements_L.
Qed.


(** X8.  Delete against the service: every recorded member gets one
    removal call, none fails, Delete returns [nil], and the group keeps
    exactly the members that the record did not list. *)
Theorem delete_removes_recorded_members d (s : gmap string (gset string)) M :
  s !! Get_group d = Some M →
  resourceAwsIamGroupMembershipDelete (simIAM pageSize) d (start s)
  = (Returned None, d,
     (<[Get_group d := M ∖ Get_users d]> s,
      map (removal (Get_group d) None) (Set_List (Get_users d)))).
Proof.
  intros Hs. unfold resourceAwsIamGroupMembershipDelete, expandStringList, start.
  rewrite (sim_removes pageSize _ _ s M [] Hs).
  unfold Set_List. by rewrite list_to_set_elements_L.
Qed.

(** X9.  Create followed by Delete of the record that Create returned
    leaves the group without members, also those that it had before
    Create: Create's Read records every member, and Delete removes
    every recorded member. *)
Theorem create_then_delete_empties_group fuel d
    (s : gmap string (gset string)) M :
  s !! Get_group d = Some M →
  size (Get_users d ∪ M) < fuel →
  ∃ d' w' w'',
    resourceAwsIamGroupMembershipCreate (simIAM pageSize) fuel d (start s)
    = (Returned None, d', w') ∧
    resourceAwsIamGroupMembershipDelete (simIAM pageSize) d' (start (fst w'))
    = (Returned None, d', w'') ∧
    fst w'' !! Get_group d = Some ∅.
Proof.
  intros Hs Hfuel.
  unfold resourceAwsIamGroupMembershipCreate, expandStringList, start.
  rewrite (sim_adds pageSize _ _ s M [] Hs).
  unfold Set_List. rewrite list_to_set_elements_L.
  destruct (sim_Read fuel (SetId (Get_name d) d)
              (<[Get_group d := Get_users d ∪ M]> s) (Get_users d ∪ M)
              ([] ++ map (addition (Get_group d) None) (elements (Get_users d))))
    as (gets & Hrun & _); [apply lookup_insert_eq|done|].
  eexists _, _, _. split; [exact Hrun|]. split.
  - apply (delete_removes_recorded_members _ _ (Get_users d ∪ M)).
    apply lookup_insert_eq.
  - simpl. unfold Get_users at 2. simpl.
    rewrite list_to_set_elements_L, difference_diag_L. apply lookup_insert_eq.
Qed.

End Convergence.

Section ImportRead.

Context {G : Type}.
Variable UniqueId : G → string * G.
Variable pageSize : nat.
Hypothesis pageSize_pos : 0 < pageSize.

(** X10.  Import followed by Read: for a non-empty identifier that is
    the name of a group of the service, the record that Import returns
    is read without error; afterwards its [group] is the identifier,
    its [users] the group's members, its identity the generated token,
    and its [name] is still unset (Import does not set it and Read does
    not write it). *)
Theorem import_then_read fuel (id : string) (g : G)
    (s : gmap string (gset string)) M :
  id ≠ "" → s !! id = Some M → size M < fuel →
  ∃ d1 d2 gets,
    resourceAwsIamGroupMembershipImport UniqueId (importRecord id) g
    = (inl [d1], (UniqueId g).2) ∧
    resourceAwsIamGroupMembershipRead (simIAM pageSize) fuel d1 (start s)
    = (Returned None, d2, (s, gets)) ∧
    rd_group d2 = Some id ∧ rd_users d2 = Some M ∧
    Id d2 = (UniqueId g).1 ∧ rd_name d2 = None.
Proof.
  intros Hid Hs Hfuel.
  unfold resourceAwsIamGroupMembershipImport. simpl.
  destruct (Nat.eqb (String.length id) 0) eqn:Hlen.
  { apply length_zero_iff_empty in Hlen. done. }
  destruct (UniqueId g) as [token g'] eqn:Htoken. simpl.
  destruct (sim_Read pageSize pageSize_pos fuel
              (SetId token (Set_group id (importRecord id))) s M [] Hs Hfuel)
    as (gets & Hrun & _).
  eexists _, _, gets. split; [reflexivity|]. split; [exact Hrun|]. simpl.
  by rewrite list_to_set_elements_L.
Qed.

End ImportRead.

(** ** The further properties at sample inputs *)

Lemma delete_never_returns_not_found_witness :
  isNoSuchEntity denied = false ∧ team = team ∧
  ∃ pre u post,
    Set_List (Get_users team) = pre ++ u :: post ∧
    [removal "devs" None "alice"; removal "devs" (Some denied) "bob"]
    = map (removal (Get_group team) None) pre
      ++ [removal (Get_group team) (Some denied) u].
Proof.
  apply (delete_never_returns_not_found scriptIAM team
           (mkScript [] [] [None; Some denied]) denied team
           (mkScript [] [] [],
            [removal "devs" None "alice"; removal "devs" (Some denied) "bob"])).
  vm_compute. reflexivity.
Defined.

Lemma read_never_returns_on_endless_listing_witness :
  ∃ w', resourceAwsIamGroupMembershipRead stuckIAM 7 team (start tt)
        = (OutOfFuel, team, w') ∧
        length (snd w') = 7.
Proof.
  apply (read_never_returns_on_endless_listing stuckIAM 7 team tt).
  intros i s0. exists page1, s0. split; [reflexivity|]. split; [reflexivity|].
  repeat constructor. simpl. by eexists.
Defined.

Lemma read_observes_membership_witness :
  ∃ d' gets,
    resourceAwsIamGroupMembershipRead (simIAM 2) 5 team
      (start {["devs" := {["zed"; "amy"; "bob"]}]})
    = (Returned None, d', ({["devs" := {["zed"; "amy"; "bob"]}]}, gets)) ∧
    rd_users d' = Some {["zed"; "amy"; "bob"]} ∧ rd_id d' = rd_id team ∧
    Forall (λ ev, ev_err ev = None) gets.
Proof.
  apply (read_observes_membership 2 ltac:(lia) 5 team
           {["devs" := {["zed"; "amy"; "bob"]}]} {["zed"; "amy"; "bob"]}).
  - reflexivity.
  - vm_compute. lia.
Defined.


Lemma delete_removes_recorded_members_witness :
  resourceAwsIamGroupMembershipDelete (simIAM 2) team
    (start {["devs" := {["alice"; "bob"; "zed"]}]})
  = (Returned None, team,
     (<[Get_group team := {["alice"; "bob"; "zed"]} ∖ Get_users team]>
        {["devs" := {["alice"; "bob"; "zed"]}]},
      map (removal (Get_group team) None) (Set_List (Get_users team)))).
Proof.
  apply (delete_removes_recorded_members 2 team
           {["devs" := {["alice"; "bob"; "zed"]}]} {["alice"; "bob"; "zed"]}).
  reflexivity.
Defined.

Lemma create_then_delete_empties_group_witness :
  ∃ d' w' w'',
    resourceAwsIamGroupMembershipCreate (simIAM 2) 5 team
      (start {["devs" := {["zed"]}]})
    = (Returned None, d', w') ∧
    resourceAwsIamGroupMembershipDelete (simIAM 2) d' (start (fst w'))
    = (Returned None, d', w'') ∧
    fst w'' !! Get_group team = Some ∅.
Proof.
  apply (create_then_delete_empties_group 2 ltac:(lia) 5 team
           {["devs" := {["zed"]}]} {["zed"]}).
  - reflexivity.
  - vm_compute. lia.
Defined.

Lemma import_then_read_witness :
  ∃ d1 d2 gets,
    resourceAwsIamGroupMembershipImport sdkUniqueId (importRecord "devs") 0
    = (inl [d1], (sdkUniqueId 0).2) ∧
    resourceAwsIamGroupMembershipRead (simIAM 2) 5 d1
      (start {["devs" := {["alice"; "bob"; "zed"]}]})
    = (Returned None, d2, ({["devs" := {["alice"; "bob"; "zed"]}]}, gets)) ∧
    rd_group d2 = Some "devs" ∧ rd_users d2 = Some {["alice"; "bob"; "zed"]} ∧
    Id d2 = (sdkUniqueId 0).1 ∧ rd_name d2 = None.
Proof.
  apply (import_then_read sdkUniqueId 2 ltac:(lia) 5 "devs" 0
           {["devs" := {["alice"; "bob"; "zed"]}]} {["alice"; "bob"; "zed"]}).
  - done.
  - reflexivity.
  - vm_compute. lia.
Defined.
